(** * Env: layered lookup of environment variables

    A shallow embedding of the [Env] class of [@atsjj/env] (file [env.ts]) and
    the properties of its key composition and fallback resolution.

    Conventions of the model.
    - A JavaScript string is a [string]: a sequence of 8-bit characters,
      read as the ASCII code units environment variable names are made of.
      [toUpperCase] is ECMAScript's on that range (it maps [a]..[z] to
      [A]..[Z] and leaves every other ASCII character alone).
    - A logical key is a [string]: [toString()] is the identity on strings,
      and numeric or symbol keys are outside the model.
    - An [Environment] object is the finite map of the properties that
      [Reflect.has] and [Reflect.get] see in it, those it inherits from
      [Object.prototype] apart: their names all contain a lower-case
      letter, which no candidate key does ([fetchKeysFor_not_lower]), and
      none is a name the constructor reads.  A property may be bound to
      [undefined], which differs from the property being absent.
    - A method that can throw returns a [result].
    - [Env] instances live in a [Heap] and are called through a location,
      so that [with] really allocates. *)

From Stdlib Require Import Ascii String NArith Lia.
From stdpp Require Import base option list gmap strings.

Local Open Scope string_scope.
Local Open Scope list_scope.

(** ** ECMAScript primitives used by the class *)

Module JS.

(** A value of TypeScript type [string | undefined]. *)
Inductive value : Type :=
  | VUndefined
  | VString (s : string).

(** What a field or an argument can hold at run time: a primitive or an
    object whose properties are of type [string | undefined]. *)
Inductive jsval : Type :=
  | JUndefined
  | JString (s : string)
  | JObject (m : gmap string value).

Definition of_value (v : value) : jsval :=
  match v with
  | VUndefined => JUndefined
  | VString s => JString s
  end.

(** Errors the class can raise: its own error class, which like every
    [Error] carries a message, and the [TypeError] of [Reflect.has],
    [Reflect.get] and destructuring on a non-object. *)
Inductive error : Type :=
  | MissingKey (message : string)
  | TypeError.

Inductive result (A : Type) : Type :=
  | Ok (a : A)
  | Throw (e : error).
Arguments Ok {A} a.
Arguments Throw {A} e.

Definition bind {A B} (r : result A) (k : A -> result B) : result B :=
  match r with
  | Ok a => k a
  | Throw e => Throw e
  end.

(** [try { r } catch (error) { handler error }] *)
Definition try_catch {A} (r : result A) (handler : error -> result A) : result A :=
  match r with
  | Ok a => Ok a
  | Throw e => handler e
  end.

(** [ToBoolean] on [string | undefined]: only a non-empty string is truthy. *)
Definition truthy (v : value) : bool :=
  match v with
  | VUndefined => false
  | VString "" => false
  | VString _ => true
  end.

(** [Array.prototype.join]: the elements with [sep] between consecutive
    ones; the empty array gives the empty string. *)
Fixpoint join (sep : string) (l : list string) : string :=
  match l with
  | [] => ""
  | [x] => x
  | x :: l' => x +:+ sep +:+ join sep l'
  end.

(** [c] is one of [a]..[z]. *)
Definition lower_case (c : ascii) : bool :=
  let n := N_of_ascii c in ((97 <=? n) && (n <=? 122))%N.

Definition upper_ascii (c : ascii) : ascii :=
  if lower_case c then ascii_of_N (N_of_ascii c - 32) else c.

(** [String.prototype.toUpperCase] *)
Fixpoint toUpperCase (s : string) : string :=
  match s with
  | "" => ""
  | String c s' => String (upper_ascii c) (toUpperCase s')
  end.

(** [String.prototype.split] with a separator [sep] that matches single
    characters and never the empty string, and no limit: the text between
    consecutive matches, empty pieces included; the empty string gives one
    empty piece. *)
Fixpoint split (sep : ascii -> bool) (s : string) : list string :=
  match s with
  | "" => [""]
  | String c s' =>
      if sep c then "" :: split sep s'
      else match split sep s' with
           | t :: ts => String c t :: ts
           | [] => [String c ""]
           end
  end.

(** [Reflect.has(target, key)] *)
Definition Reflect_has (target : jsval) (key : string) : result bool :=
  match target with
  | JObject m => Ok (bool_decide (is_Some (m !! key)))
  | _ => Throw TypeError
  end.

(** [Reflect.get(target, key)], at the type [string | undefined] of the
    properties of an [Environment]. *)
Definition Reflect_get (target : jsval) (key : string) : result value :=
  match target with
  | JObject m => Ok (default VUndefined (m !! key))
  | _ => Throw TypeError
  end.

End JS.

Export JS.

Notation "x <- r ;; k" := (bind r (fun x => k))
  (at level 100, r at next level, right associativity).

Abbreviation Environment := (gmap string value).

(** [EnvironmentKey], at its string instance. *)
Abbreviation EnvironmentKey := string.

(** ** Module constants *)

(** [/[_\.]/]: matches one character, an underscore or a full stop. *)
Definition NamespacePattern (c : ascii) : bool :=
  bool_decide (c = "_"%char) || bool_decide (c = "."%char).

(** [Object.freeze({})]: an object without properties. *)
Definition DefaultEnvironment : jsval := JObject ∅.

Definition DefaultNamespace : string := "".

Definition DefaultPrefix : string := "".

Definition DefaultTarget : string := "development".

(** [new MissingEnvironmentKeyError(...keys)] *)
Definition MissingEnvironmentKeyError (keys : list EnvironmentKey) : error :=
  MissingKey (join " or " keys +:+ " must be provided.").

(** ** The class [Env] *)

(** The fields of an instance.  [environment] is declared of type
    [Environment], but holds whatever the constructor was given. *)
Record Env : Type := mkEnv {
  environment : jsval;
  prefix : string;
  namespace : string;
  target : string;
}.

(** [EnvOptions], as the constructor's destructuring pattern reads it:
    a property that is missing reads as [undefined]. *)
Record EnvOptions : Type := mkOptions {
  opt_environment : jsval;
  opt_namespace : value;
  opt_prefix : value;
  opt_target : value;
}.

Section Methods.

Variable this : Env.

Definition prefixes : list string := split NamespacePattern (prefix this).

Definition namespaces : list string := split NamespacePattern (namespace this).

Definition targets : list string := split NamespacePattern (target this).

Definition keysFor (key : EnvironmentKey) : list string := split NamespacePattern key.

Definition withPrefixesNamespacesTargetsKeyFor (keys : list string) : string :=
  toUpperCase (join "_" (prefixes ++ namespaces ++ targets ++ keys)).

Definition withNamespacesTargetsKeyFor (keys : list string) : string :=
  toUpperCase (join "_" (namespaces ++ targets ++ keys)).

Definition withPrefixesNamespacesKeyFor (keys : list string) : string :=
  toUpperCase (join "_" (prefixes ++ namespaces ++ keys)).

Definition withNamespacesKeyFor (keys : list string) : string :=
  toUpperCase (join "_" (namespaces ++ keys)).

Definition withPrefixesKeyFor (keys : list string) : string :=
  toUpperCase (join "_" (prefixes ++ keys)).

Definition withKeyFor (keys : list string) : string :=
  toUpperCase (join "_" keys).

Definition fetchKeysFor (keys : list string) : list string :=
  [ withPrefixesNamespacesTargetsKeyFor keys;
    withNamespacesTargetsKeyFor keys;
    withPrefixesNamespacesKeyFor keys;
    withNamespacesKeyFor keys;
    withPrefixesKeyFor keys;
    withKeyFor keys ].

Definition has (key : EnvironmentKey) : result bool :=
  Reflect_has (environment this) key.

(** [keys.some(this.has.bind(this))]: stops at the first key that [has]
    accepts. *)
Fixpoint some (keys : list EnvironmentKey) : result bool :=
  match keys with
  | [] => Ok false
  | k :: keys' => b <- has k ;; if b : bool then Ok true else some keys'
  end.

(** [keys.find(this.has.bind(this))]: the first key that [has] accepts,
    [None] standing for the [undefined] of an unsuccessful search. *)
Fixpoint find (keys : list EnvironmentKey) : result (option EnvironmentKey) :=
  match keys with
  | [] => Ok None
  | k :: keys' => b <- has k ;; if b : bool then Ok (Some k) else find keys'
  end.

(** [Reflect.get] turns its key into a property name: [undefined] names
    the property ["undefined"]. *)
Definition get (key : option EnvironmentKey) : result value :=
  Reflect_get (environment this) (default "undefined" key).

Definition fetch (keys : list EnvironmentKey) : result value :=
  b <- some keys ;;
  if b : bool then k <- find keys ;; get k
  else Throw (MissingEnvironmentKeyError keys).

Definition required (key : EnvironmentKey) : result value :=
  fetch (fetchKeysFor (keysFor key)).

Definition optional (key : EnvironmentKey) (defaultValue : value) : result value :=
  try_catch (required key)
    (fun error => if truthy defaultValue then Ok defaultValue else Throw error).

End Methods.

(** ** Construction and [with] *)

(** Instances are allocated in a heap and referred to by location. *)
Definition loc : Type := nat.

Abbreviation Heap := (list Env).

(** A fresh instance after the class-field initialisers have run. *)
Definition fresh : Env :=
  {| environment := JUndefined; prefix := ""; namespace := ""; target := "" |}.

Definition alloc (h : Heap) : loc * Heap := (List.length h, h ++ [fresh]).

Definition set_environment (v : jsval) (o : Env) : Env :=
  {| environment := v; prefix := prefix o; namespace := namespace o; target := target o |}.

Definition set_namespace (s : string) (o : Env) : Env :=
  {| environment := environment o; prefix := prefix o; namespace := s; target := target o |}.

Definition set_prefix (s : string) (o : Env) : Env :=
  {| environment := environment o; prefix := s; namespace := namespace o; target := target o |}.

Definition set_target (s : string) (o : Env) : Env :=
  {| environment := environment o; prefix := prefix o; namespace := namespace o; target := s |}.

(** A default in a destructuring pattern applies when the property reads
    as [undefined]. *)
Definition or_default (v : value) (d : string) : string :=
  match v with
  | VUndefined => d
  | VString s => s
  end.

Definition or_default_environment (v : jsval) : jsval :=
  match v with
  | JUndefined => DefaultEnvironment
  | _ => v
  end.

(** The body of the constructor, once [options] has been read. *)
Definition constructor (this : loc) (options : EnvOptions) (h : Heap) : Heap :=
  let environment := or_default_environment (opt_environment options) in
  let namespace := or_default (opt_namespace options) DefaultNamespace in
  let prefix := or_default (opt_prefix options) DefaultPrefix in
  let target := or_default (opt_target options) DefaultTarget in
  let h := alter (set_environment environment) this h in
  let h := alter (set_namespace namespace) this h in
  let h := alter (set_prefix prefix) this h in
  alter (set_target target) this h.

(** [new Env(options)] *)
Definition new_Env (options : EnvOptions) (h : Heap) : loc * Heap :=
  let '(this, h) := alloc h in (this, constructor this options h).

(** Reading the four properties of the constructor's pattern from a
    run-time value: an [Environment] object yields what it binds those
    names to (a string where an object is expected included), a string
    has none of them, and [undefined] cannot be destructured. *)
Definition read_options (v : jsval) : result EnvOptions :=
  match v with
  | JUndefined => Throw TypeError
  | JString _ =>
      Ok {| opt_environment := JUndefined; opt_namespace := VUndefined;
            opt_prefix := VUndefined; opt_target := VUndefined |}
  | JObject m =>
      Ok {| opt_environment := of_value (default VUndefined (m !! "environment"));
            opt_namespace := default VUndefined (m !! "namespace");
            opt_prefix := default VUndefined (m !! "prefix");
            opt_target := default VUndefined (m !! "target") |}
  end.

(** [Reflect.construct(Env, args)]: the constructor has one parameter,
    [options], bound to the first argument; further arguments are dropped. *)
Definition Reflect_construct (args : list jsval) (h : Heap) : result (loc * Heap) :=
  options <- read_options (List.nth 0 args JUndefined) ;;
  Ok (new_Env options h).

(** [this.with(target)], for an instance of [Env] itself. *)
Definition with_ (this : loc) (target' : string) (h : Heap) : result (loc * Heap) :=
  match h !! this with
  | Some o =>
      Reflect_construct
        [environment o; JString (prefix o); JString (namespace o); JString target'] h
  | None => Throw TypeError
  end.

(** A method call through a location. *)
Definition call {A} (h : Heap) (this : loc) (method : Env -> result A) : result A :=
  match h !! this with
  | Some o => method o
  | None => Throw TypeError
  end.

(** ** The class [NodeEnv] (file [lib/node-env.ts])

    [process.env] is the host's table of variables; the class reads it
    when an instance is made, so the model takes it as an argument. *)

(** What the [Env] constructor reads from
    [{ ...options, environment: process.env, target }], where [target] is
    [NODE_ENV] or, when that reads as [undefined], [DefaultTarget]. *)
Definition NodeEnv_options (process_env : Environment) (options : EnvOptions)
  : EnvOptions :=
  let target :=
    or_default (default VUndefined (process_env !! "NODE_ENV")) DefaultTarget in
  {| opt_environment := JObject process_env;
     opt_namespace := opt_namespace options;
     opt_prefix := opt_prefix options;
     opt_target := VString target |}.

(** [new NodeEnv(options)] *)
Definition new_NodeEnv (process_env : Environment) (options : EnvOptions)
    (h : Heap) : loc * Heap :=
  new_Env (NodeEnv_options process_env options) h.

(** The properties an object spread [{ ...v }] copies from a run-time
    value, among the four the constructor reads: those of an object, and
    none from a string or from [undefined], which spread without error. *)
Definition spread_options (v : jsval) : EnvOptions :=
  match v with
  | JObject m =>
      {| opt_environment := of_value (default VUndefined (m !! "environment"));
         opt_namespace := default VUndefined (m !! "namespace");
         opt_prefix := default VUndefined (m !! "prefix");
         opt_target := default VUndefined (m !! "target") |}
  | _ =>
      {| opt_environment := JUndefined; opt_namespace := VUndefined;
         opt_prefix := VUndefined; opt_target := VUndefined |}
  end.

(** [Reflect.construct(NodeEnv, args)] *)
Definition Reflect_construct_NodeEnv (process_env : Environment)
    (args : list jsval) (h : Heap) : loc * Heap :=
  new_NodeEnv process_env (spread_options (List.nth 0 args JUndefined)) h.

(** [this.with(target)], for an instance of [NodeEnv]: the constructor
    found on the prototype is [NodeEnv]. *)
Definition with_NodeEnv (process_env : Environment) (this : loc)
    (target' : string) (h : Heap) : result (loc * Heap) :=
  match h !! this with
  | Some o =>
      Ok (Reflect_construct_NodeEnv process_env
            [environment o; JString (prefix o); JString (namespace o);
             JString target'] h)
  | None => Throw TypeError
  end.

(** ** Specification vocabulary *)

(** The string with every delimiter replaced by an underscore, character
    for character: nothing is trimmed and no run is collapsed. *)
Fixpoint underscored (s : string) : string :=
  match s with
  | "" => ""
  | String c s' => String (if NamespacePattern c then "_"%char else c) (underscored s')
  end.

Definition starts_with_delimiter (s : string) : bool :=
  match s with
  | "" => false
  | String c _ => NamespacePattern c
  end.

Fixpoint ends_with_delimiter (s : string) : bool :=
  match s with
  | "" => false
  | String c "" => NamespacePattern c
  | String _ s' => ends_with_delimiter s'
  end.

Fixpoint adjacent_delimiters (s : string) : bool :=
  match s with
  | "" => false
  | String c s' =>
      (NamespacePattern c && starts_with_delimiter s') || adjacent_delimiters s'
  end.

Fixpoint delimiters (s : string) : nat :=
  match s with
  | "" => 0
  | String c s' => (if NamespacePattern c then 1 else 0) + delimiters s'
  end.

(** [c] occurs in [s]. *)
Fixpoint occurs (c : ascii) (s : string) : Prop :=
  match s with
  | "" => False
  | String d s' => c = d \/ occurs c s'
  end.

(** No character of [s] is a delimiter. *)
Fixpoint delimiter_free (s : string) : bool :=
  match s with
  | "" => true
  | String c s' => negb (NamespacePattern c) && delimiter_free s'
  end.

(** The form in which a prefix, namespace, target or key takes part in a
    candidate: delimiters as underscores, letters in upper case. *)
Definition normal_form (s : string) : string := toUpperCase (underscored s).

(** The key is a property of the object, bound to a string or to
    [undefined]. *)
Definition present (m : Environment) (key : string) : Prop := is_Some (m !! key).

#[global] Instance present_dec m key : Decision (present m key).
Proof. unfold present. apply _. Defined.

(** [c] is one of [a]..[z]. *)
Definition lower_case (c : ascii) : bool :=
  let n := N_of_ascii c in ((97 <=? n) && (n <=? 122))%N.

(** The instance the constructor leaves at the fresh location. *)
Definition constructed (options : EnvOptions) : Env :=
  {| environment := or_default_environment (opt_environment options);
     prefix := or_default (opt_prefix options) DefaultPrefix;
     namespace := or_default (opt_namespace options) DefaultNamespace;
     target := or_default (opt_target options) DefaultTarget |}.

(** Every instance of a heap has been through the constructor. *)
Definition well_formed (h : Heap) : Prop :=
  Forall (fun o => environment o <> JUndefined) h.

(** ** Worked examples *)

(** The environment and resolver of the worked example:
    [{ SOME_PROJECT_URL: "a", URL: "b" }] with prefix ["some"], namespace
    ["project"] and target ["test"]. *)
Definition example_environment : Environment :=
  <["SOME_PROJECT_URL" := VString "a"]> (<["URL" := VString "b"]> ∅).

Definition example_resolver : Env :=
  mkEnv (JObject example_environment) "some" "project" "test".

(** An environment in which [URL] is bound to [undefined]. *)
Definition undefined_environment : Environment := {["URL" := VUndefined]}.

(** The environment of the worked example with the more specific key
    bound to [undefined]: [{ SOME_PROJECT_URL: undefined, URL: "b" }]. *)
Definition undefined_override_environment : Environment :=
  <["SOME_PROJECT_URL" := VUndefined]> (<["URL" := VString "b"]> ∅).

(** A resolver with a production override:
    [new Env({ environment: { SOME_PROJECT_PRODUCTION_URL: "p", URL: "b" },
               prefix: "some", namespace: "project", target: "test" })]. *)
Definition production_environment : Environment :=
  <["SOME_PROJECT_PRODUCTION_URL" := VString "p"]> (<["URL" := VString "b"]> ∅).

Definition production_options : EnvOptions :=
  {| opt_environment := JObject production_environment;
     opt_namespace := VString "project";
     opt_prefix := VString "some";
     opt_target := VString "test" |}.

(** ** Strings, [split] and [join] *)

Section Strings.

Implicit Types (s t : string) (l : list string) (sep : ascii -> bool).

Lemma app_String c s t : String c s +:+ t = String c (s +:+ t).
Proof. reflexivity. Qed.

Lemma app_empty_l s : "" +:+ s = s.
Proof. reflexivity. Qed.

Lemma app_empty_r s : s +:+ "" = s.
Proof. induction s as [|c s IH]; [done | by rewrite app_String, IH]. Qed.

Lemma app_assoc_str s t u : (s +:+ t) +:+ u = s +:+ t +:+ u.
Proof. induction s as [|c s IH]; [done | by rewrite !app_String, IH]. Qed.

Lemma toUpperCase_app s t :
  toUpperCase (s +:+ t) = toUpperCase s +:+ toUpperCase t.
Proof.
  induction s as [|c s IH]; [done |]. rewrite app_String. simpl. by rewrite IH.
Qed.

Lemma upper_ascii_not_lower c : lower_case (upper_ascii c) = false.
Proof. by destruct c as [[] [] [] [] [] [] [] []]. Qed.

Lemma toUpperCase_not_lower s c :
  occurs c (toUpperCase s) -> lower_case c = false.
Proof.
  induction s as [|d s IH]; [done |]. simpl.
  intros [-> | Hc]; [apply upper_ascii_not_lower | by apply IH].
Qed.

Lemma split_not_nil sep s : split sep s <> [].
Proof.
  destruct s as [|c s]; simpl; [done |].
  destruct (sep c); [done |]. by destruct (split sep s).
Qed.

Lemma split_cons sep s : exists t ts, split sep s = t :: ts.
Proof.
  destruct (split sep s) as [|t ts] eqn:E; [by apply split_not_nil in E | eauto].
Qed.

Lemma join_cons d t l :
  l <> [] -> join d (t :: l) = t +:+ d +:+ join d l.
Proof. by destruct l. Qed.

Lemma join_app d l1 l2 :
  l1 <> [] -> l2 <> [] ->
  join d (l1 ++ l2) = join d l1 +:+ d +:+ join d l2.
Proof.
  intros H1 H2. induction l1 as [|x l1 IH]; [done |].
  destruct l1 as [|y l1].
  - simpl app. by rewrite join_cons.
  - change ((x :: y :: l1) ++ l2) with (x :: ((y :: l1) ++ l2)).
    rewrite !join_cons by done. rewrite IH by done.
    by rewrite !app_assoc_str.
Qed.

Lemma join_split s :
  join "_" (split NamespacePattern s) = underscored s.
Proof.
  induction s as [|c s IH]; [done |]. simpl.
  destruct (NamespacePattern c).
  - rewrite join_cons by apply split_not_nil. by rewrite IH.
  - destruct (split_cons NamespacePattern s) as (t & ts & E).
    rewrite E in IH |- *. rewrite <- IH. by destruct ts.
Qed.

Lemma length_underscored s : String.length (underscored s) = String.length s.
Proof. induction s as [|c s IH]; [done | simpl; by rewrite IH]. Qed.

Lemma length_split s :
  List.length (split NamespacePattern s) = S (delimiters s).
Proof.
  induction s as [|c s IH]; [done |]. simpl.
  destruct (NamespacePattern c); simpl; [by rewrite IH |].
  destruct (split_cons NamespacePattern s) as (t & ts & E).
  rewrite E in IH |- *. done.
Qed.

End Strings.

(** ** Tokens of [split] *)

Section Tokens.

Implicit Types (s t : string) (c : ascii).

Lemma split_delimiter_free s t c :
  t ∈ split NamespacePattern s -> occurs c t -> NamespacePattern c = false.
Proof.
  revert t. induction s as [|d s IH]; intros t Ht Hc.
  - apply list_elem_of_singleton in Ht. by subst t.
  - simpl in Ht. destruct (NamespacePattern d) eqn:Ed.
    + apply elem_of_cons in Ht as [-> | Ht]; [done | eauto].
    + destruct (split_cons NamespacePattern s) as (u & us & E).
      rewrite E in Ht, IH.
      apply elem_of_cons in Ht as [-> | Ht].
      * destruct Hc as [-> | Hc]; [done |].
        apply (IH u); [by left | done].
      * apply (IH t); [by right | done].
Qed.

Lemma head_split_empty s u us :
  split NamespacePattern s = u :: us ->
  u = "" <-> s = "" \/ starts_with_delimiter s = true.
Proof.
  destruct s as [|d s]; simpl.
  - intros [= <- <-]. tauto.
  - destruct (NamespacePattern d).
    + intros [= <- <-]. tauto.
    + destruct (split_cons NamespacePattern s) as (v & vs & ->).
      intros [= <- <-]. split; [done | intros [? | ?]; done].
Qed.

Lemma ends_with_delimiter_String c s :
  ends_with_delimiter (String c s)
  = match s with "" => NamespacePattern c | _ => ends_with_delimiter s end.
Proof. reflexivity. Qed.

Lemma tail_split_empty s :
  "" ∈ tail (split NamespacePattern s)
  <-> ends_with_delimiter s = true \/ adjacent_delimiters s = true.
Proof.
  induction s as [|d s IH].
  - simpl. rewrite elem_of_nil. intuition congruence.
  - destruct (split_cons NamespacePattern s) as (u & us & E).
    pose proof (head_split_empty s u us E) as Hh.
    rewrite E in IH. simpl in IH.
    rewrite ends_with_delimiter_String. simpl. rewrite E.
    destruct (NamespacePattern d) eqn:Ed; simpl.
    + rewrite elem_of_cons, IH.
      assert ("" = u <-> u = "") as -> by (split; congruence). rewrite Hh.
      destruct s as [|e s]; [tauto |].
      split; [intros [[? | ?] | [? | ?]] | intros [? | Hadj]]; try done; auto.
      * right. by apply orb_true_iff; left.
      * right. by apply orb_true_iff; right.
      * apply orb_true_iff in Hadj as [? | ?]; auto.
    + rewrite IH. by destruct s.
Qed.

Lemma split_empty_token s :
  "" ∈ split NamespacePattern s
  <-> s = "" \/ starts_with_delimiter s = true
      \/ ends_with_delimiter s = true \/ adjacent_delimiters s = true.
Proof.
  pose proof (tail_split_empty s) as Ht.
  destruct (split_cons NamespacePattern s) as (u & us & E).
  pose proof (head_split_empty s u us E) as Hh.
  rewrite E in Ht |- *. simpl in Ht.
  rewrite elem_of_cons, Ht.
  assert ("" = u <-> u = "") as -> by (split; congruence). tauto.
Qed.

End Tokens.

(** ** Searching an [Environment] object *)

Section Lookup.

Variable this : Env.
Variable m : Environment.
Hypothesis environment_this : environment this = JObject m.

Lemma has_object key : has this key = Ok (bool_decide (present m key)).
Proof. unfold has. by rewrite environment_this. Qed.

Lemma get_object key :
  get this (Some key) = Ok (default VUndefined (m !! key)).
Proof. unfold get. by rewrite environment_this. Qed.

Lemma some_object keys :
  some this keys = Ok (bool_decide (is_Some (list_find (present m) keys))).
Proof.
  induction keys as [|k keys IH]; [done |].
  simpl. rewrite has_object. simpl.
  destruct (decide (present m k)) as [Hk | Hk].
  - by rewrite (bool_decide_eq_true_2 _ Hk).
  - rewrite (bool_decide_eq_false_2 _ Hk), IH. f_equal.
    apply bool_decide_ext. by rewrite fmap_is_Some.
Qed.

Lemma find_object keys :
  find this keys = Ok (snd <$> list_find (present m) keys).
Proof.
  induction keys as [|k keys IH]; [done |].
  simpl. rewrite has_object. simpl.
  destruct (decide (present m k)) as [Hk | Hk].
  - by rewrite (bool_decide_eq_true_2 _ Hk).
  - rewrite (bool_decide_eq_false_2 _ Hk), IH. f_equal.
    by destruct (list_find (present m) keys) as [[i x]|].
Qed.

Lemma fetch_object keys :
  fetch this keys =
    match list_find (present m) keys with
    | Some (_, k) => Ok (default VUndefined (m !! k))
    | None => Throw (MissingEnvironmentKeyError keys)
    end.
Proof.
  unfold fetch. rewrite some_object, find_object. simpl.
  destruct (list_find (present m) keys) as [[i k]|] eqn:E; simpl.
  - apply get_object.
  - done.
Qed.

Lemma fetch_first keys i k v :
  keys !! i = Some k -> m !! k = Some v ->
  (forall j k', j < i -> keys !! j = Some k' -> m !! k' = None) ->
  fetch this keys = Ok v.
Proof.
  intros Hi Hk Hfirst. rewrite fetch_object.
  assert (list_find (present m) keys = Some (i, k)) as ->.
  { apply list_find_Some. split_and!; [done | by exists v |].
    intros j y Hj Hlt [w Hw]. rewrite (Hfirst j y Hlt Hj) in Hw. done. }
  by rewrite Hk.
Qed.

Lemma fetch_throws keys :
  (exists e, fetch this keys = Throw e) <-> forall k, k ∈ keys -> m !! k = None.
Proof.
  rewrite fetch_object.
  destruct (list_find (present m) keys) as [[i k]|] eqn:E.
  - apply list_find_Some in E as (Hi & [v Hv] & _). split.
    + intros [e ?]. done.
    + intros Hnone. apply list_elem_of_lookup_2 in Hi.
      rewrite (Hnone k Hi) in Hv. done.
  - split; [intros _ | by eauto].
    intros k Hk. apply list_find_None in E.
    rewrite Forall_forall in E. specialize (E k Hk).
    unfold present in E. by apply eq_None_not_Some.
Qed.

Lemma fetch_error keys e :
  fetch this keys = Throw e -> e = MissingEnvironmentKeyError keys.
Proof.
  rewrite fetch_object.
  destruct (list_find (present m) keys) as [[i k]|]; [done |]. by intros [= <-].
Qed.

End Lookup.

(** No candidate key contains a lower-case letter: none is the name of a
    property of [Object.prototype]. *)
Lemma fetchKeysFor_not_lower (this : Env) (keys : list string) k c :
  k ∈ fetchKeysFor this keys -> occurs c k -> lower_case c = false.
Proof.
  intros Hk Hc. unfold fetchKeysFor in Hk.
  repeat (apply elem_of_cons in Hk as [-> | Hk];
          [by apply toUpperCase_not_lower in Hc |]).
  by apply elem_of_nil in Hk.
Qed.

(** ** Candidate keys and resolution *)

(** C1. For every logical key and configuration, candidate-key generation
    yields exactly six strings, each the upper-cased underscore-join of a
    sequence of segments, in the order P+N+T+K, N+T+K, P+N+K, N+K, P+K, K;
    these six are what [required] searches. *)
Theorem fetchKeysFor_candidates (this : Env) (key : string) :
  let P := split NamespacePattern (prefix this) in
  let N := split NamespacePattern (namespace this) in
  let T := split NamespacePattern (target this) in
  let K := split NamespacePattern key in
  let candidates :=
    [ toUpperCase (join "_" (P ++ N ++ T ++ K));
      toUpperCase (join "_" (N ++ T ++ K));
      toUpperCase (join "_" (P ++ N ++ K));
      toUpperCase (join "_" (N ++ K));
      toUpperCase (join "_" (P ++ K));
      toUpperCase (join "_" K) ] in
  fetchKeysFor this (keysFor key) = candidates
  /\ List.length (fetchKeysFor this (keysFor key)) = 6
  /\ required this key = fetch this candidates.
Proof. intros P N T K candidates. split_and!; reflexivity. Qed.

(** C2, as stated, fails when presence means being bound to a string.
    With [SOME_PROJECT_URL] bound to [undefined] and [URL] to ["b"], the
    first candidate bound to a string is [URL], no candidate before it is
    bound to a string, and yet [required("url")] returns [undefined], the
    binding of the third candidate, not ["b"]. *)
Lemma required_returns_undefined_binding :
  let m := undefined_override_environment in
  let this := mkEnv (JObject m) "some" "project" "test" in
  let candidates := fetchKeysFor this (keysFor "url") in
  candidates !! 5 = Some "URL"
  /\ m !! "URL" = Some (VString "b")
  /\ (forall j k', j < 5 -> candidates !! j = Some k' ->
        ~ exists s, m !! k' = Some (VString s))
  /\ candidates !! 2 = Some "SOME_PROJECT_URL"
  /\ m !! "SOME_PROJECT_URL" = Some VUndefined
  /\ required this "url" = Ok VUndefined
  /\ required this "url" <> Ok (VString "b").
Proof.
  split_and!; try by vm_compute.
  intros j k' Hj Hk' [s Hs].
  destruct j as [|[|[|[|[|j]]]]]; [| | | | | lia];
    vm_compute in Hk'; injection Hk' as <-; by vm_compute in Hs.
Qed.

(** C2, amended. When at least one candidate exists as a key of the
    environment, whatever it is bound to, [required] returns the value
    bound to the first candidate that exists, in the generated order and
    whatever less specific candidates are bound to; in the worked example
    [required("url")] returns ["a"]. *)
Theorem required_first_present :
  (forall (m : Environment) (p n t key : string),
     let this := mkEnv (JObject m) p n t in
     let candidates := fetchKeysFor this (keysFor key) in
     (exists k, k ∈ candidates /\ present m k) ->
     exists i k v,
       candidates !! i = Some k /\ m !! k = Some v
       /\ (forall j k', j < i -> candidates !! j = Some k' -> m !! k' = None)
       /\ required this key = Ok v)
  /\ required example_resolver "url" = Ok (VString "a").
Proof.
  split; [| by vm_compute].
  intros m p n t key this candidates (k0 & Hin & Hp).
  destruct (list_find (present m) candidates) as [[i k]|] eqn:E.
  - apply list_find_Some in E as (Hi & [v Hv] & Hfirst).
    assert (forall j k', j < i -> candidates !! j = Some k' -> m !! k' = None)
      as Hnone.
    { intros j k' Hlt Hj. apply eq_None_not_Some. by apply (Hfirst j). }
    exists i, k, v. split_and!; try done.
    by apply (fetch_first this m eq_refl candidates i k v).
  - apply list_find_None in E. rewrite Forall_forall in E.
    by destruct (E k0 Hin).
Qed.

Lemma required_first_present_witness :
  exists i k v,
    fetchKeysFor example_resolver (keysFor "url") !! i = Some k
    /\ example_environment !! k = Some v
    /\ (forall j k', j < i ->
          fetchKeysFor example_resolver (keysFor "url") !! j = Some k' ->
          example_environment !! k' = None)
    /\ required example_resolver "url" = Ok v.
Proof.
  apply (proj1 required_first_present example_environment
           "some" "project" "test" "url").
  exists "URL". split.
  - vm_compute. do 5 right. left.
  - exists (VString "b"). by vm_compute.
Defined.

(** C5, as stated, fails when presence means being bound to a string.
    With [URL] bound to [undefined] none of the six candidates is bound
    to a string, and yet [required("url")] does not fail: it returns
    [undefined]. *)
Lemma required_succeeds_on_undefined_binding :
  let m := undefined_environment in
  let this := mkEnv (JObject m) "some" "project" "test" in
  (forall k, k ∈ fetchKeysFor this (keysFor "url") ->
     ~ exists s, m !! k = Some (VString s))
  /\ required this "url" = Ok VUndefined
  /\ ~ exists e, required this "url" = Throw e.
Proof.
  split_and!.
  - intros k Hk [s Hs]. vm_compute in Hk.
    repeat (apply elem_of_cons in Hk as [-> | Hk]; [by vm_compute in Hs |]).
    by apply elem_of_nil in Hk.
  - by vm_compute.
  - intros [e He]. by vm_compute in He.
Qed.

(** C5, amended. [required] fails exactly when none of the six
    candidates exists as a key of the environment, a key bound to
    [undefined] counting as one that exists; the error it then throws
    carries the six candidates, in order, joined with [" or "]. *)
Theorem required_missing_key (m : Environment) (p n t key : string) :
  let this := mkEnv (JObject m) p n t in
  let candidates := fetchKeysFor this (keysFor key) in
  ((exists e, required this key = Throw e)
   <-> forall k, k ∈ candidates -> m !! k = None)
  /\ (forall e, required this key = Throw e ->
        e = MissingKey (join " or " candidates +:+ " must be provided."))
  /\ List.length candidates = 6.
Proof.
  intros this candidates. split_and!.
  - apply (fetch_throws this m eq_refl).
  - intros e He. by apply (fetch_error this m eq_refl) in He.
  - done.
Qed.

Lemma required_missing_key_witness :
  required (mkEnv (JObject example_environment) "some" "project" "test") "missing"
  = Throw (MissingKey
      ("SOME_PROJECT_TEST_MISSING or PROJECT_TEST_MISSING or " +:+
       "SOME_PROJECT_MISSING or PROJECT_MISSING or SOME_MISSING or MISSING" +:+
       " must be provided.")).
Proof.
  destruct (required_missing_key example_environment
              "some" "project" "test" "missing") as (Hiff & Herr & _).
  destruct (proj2 Hiff) as [e He].
  - intros k Hk. vm_compute in Hk.
    repeat (apply elem_of_cons in Hk as [-> | Hk]; [by vm_compute |]).
    by apply elem_of_nil in Hk.
  - rewrite He. f_equal. apply (Herr e He).
Defined.

(** ** Presence is key existence *)

Lemma fetch_returns (this : Env) (m : Environment) (keys : list string) :
  environment this = JObject m ->
  (exists v, fetch this keys = Ok v) <-> exists k, k ∈ keys /\ present m k.
Proof.
  intros Hm. rewrite (fetch_object this m Hm).
  destruct (list_find (present m) keys) as [[i k]|] eqn:E.
  - apply list_find_Some in E as (Hi & Hk & _).
    apply list_elem_of_lookup_2 in Hi. split; eauto.
  - apply list_find_None in E. rewrite Forall_forall in E.
    split; [by intros [v ?] | intros (k & Hin & Hk)]. by destruct (E k Hin).
Qed.

(** C4, as stated, fails: a key bound to [undefined] is found by [has],
    and [required] returns [undefined] for it instead of failing. *)
Lemma undefined_binding_is_present :
  let this := mkEnv (JObject undefined_environment) "" "" "development" in
  undefined_environment !! "URL" = Some VUndefined
  /\ has this "URL" = Ok true
  /\ required this "url" = Ok VUndefined
  /\ ~ (has this "URL" = Ok true
        <-> exists s, undefined_environment !! "URL" = Some (VString s)).
Proof.
  split_and!; try by vm_compute.
  intros [H _]. destruct H as [s Hs]; [by vm_compute | by vm_compute in Hs].
Qed.

(** C4, amended. A candidate is present exactly when the key exists in
    the mapping, whatever it is bound to: a key bound to the empty string
    is present, and so is a key bound to [undefined], whose lookup yields
    [undefined]; a search succeeds exactly when one of its keys exists. *)
Theorem has_key_existence (m : Environment) (p n t key : string) :
  let this := mkEnv (JObject m) p n t in
  (has this key = Ok true <-> exists v, m !! key = Some v)
  /\ (has this key = Ok false <-> m !! key = None)
  /\ (forall v, m !! key = Some v -> get this (Some key) = Ok v)
  /\ (m !! key = Some (VString "") ->
      has this key = Ok true /\ fetch this [key] = Ok (VString ""))
  /\ (m !! key = Some VUndefined ->
      has this key = Ok true /\ fetch this [key] = Ok VUndefined)
  /\ (forall keys,
        (exists v, fetch this keys = Ok v)
        <-> exists k v, k ∈ keys /\ m !! k = Some v).
Proof.
  intros this.
  assert (forall k, has this k = Ok (bool_decide (is_Some (m !! k)))) as Hhas.
  { intros k. apply (has_object this m eq_refl). }
  assert (forall k v, m !! k = Some v -> fetch this [k] = Ok v) as Hfetch.
  { intros k v Hv. apply (fetch_first this m eq_refl [k] 0 k v); [done | done |].
    intros j k' Hj. lia. }
  split_and!.
  - rewrite Hhas. split.
    + intros [= Hb]. by apply bool_decide_eq_true_1 in Hb.
    + intros Hv. by rewrite bool_decide_eq_true_2.
  - rewrite Hhas. split.
    + intros [= Hb]. apply bool_decide_eq_false_1 in Hb.
      by apply eq_None_not_Some.
    + intros Hv. rewrite bool_decide_eq_false_2; [done |].
      by apply eq_None_not_Some.
  - intros v Hv. rewrite (get_object this m eq_refl). by rewrite Hv.
  - intros Hv. split; [| by apply Hfetch].
    rewrite Hhas, bool_decide_eq_true_2; [done | by eexists].
  - intros Hv. split; [| by apply Hfetch].
    rewrite Hhas, bool_decide_eq_true_2; [done | by eexists].
  - intros keys. rewrite (fetch_returns this m keys eq_refl).
    unfold present, is_Some. split.
    + intros (k & Hin & v & Hv). eauto.
    + intros (k & v & Hin & Hv). eauto.
Qed.

Lemma has_key_existence_witness :
  let this := mkEnv (JObject undefined_environment) "" "" "development" in
  has this "URL" = Ok true /\ fetch this ["URL"] = Ok VUndefined.
Proof.
  intros this.
  destruct (has_key_existence undefined_environment "" "" "development" "URL")
    as (_ & _ & _ & _ & Hundef & _).
  apply Hundef. by vm_compute.
Defined.

(** ** [optional] *)

(** C6. [optional] returns what [required] returns when that succeeds;
    when [required] fails it returns the default if the default is a
    non-empty string and throws the same error again otherwise, so that
    with no candidate present an empty-string default ends in the
    missing-key error rather than in [""]. *)
Theorem optional_default (this : Env) (key : string) (defaultValue : value) :
  (forall v, required this key = Ok v -> optional this key defaultValue = Ok v)
  /\ (forall e s, required this key = Throw e ->
        defaultValue = VString s -> s <> "" ->
        optional this key defaultValue = Ok (VString s))
  /\ (forall e, required this key = Throw e ->
        defaultValue = VString "" \/ defaultValue = VUndefined ->
        optional this key defaultValue = Throw e)
  /\ (forall m, environment this = JObject m ->
        (forall k, k ∈ fetchKeysFor this (keysFor key) -> m !! k = None) ->
        optional this key (VString "")
        = Throw (MissingEnvironmentKeyError (fetchKeysFor this (keysFor key)))).
Proof.
  unfold optional. split_and!.
  - by intros v ->.
  - intros e s -> -> Hs. simpl. by destruct s.
  - by intros e -> [-> | ->].
  - intros m Hm Hnone.
    destruct (proj2 (fetch_throws this m Hm _) Hnone) as [e He].
    unfold required. rewrite He. simpl. f_equal.
    by apply (fetch_error this m Hm) in He.
Qed.

Lemma optional_default_witness :
  optional example_resolver "missing" (VString "fallback") = Ok (VString "fallback")
  /\ optional example_resolver "missing" (VString "")
     = Throw (MissingEnvironmentKeyError
                (fetchKeysFor example_resolver (keysFor "missing"))).
Proof.
  destruct (optional_default example_resolver "missing" (VString "fallback"))
    as (_ & Hdefault & _).
  destruct (optional_default example_resolver "missing" (VString ""))
    as (_ & _ & _ & Hempty).
  split.
  - apply (Hdefault (MissingEnvironmentKeyError
                       (fetchKeysFor example_resolver (keysFor "missing"))));
      [by vm_compute | done | done].
  - apply (Hempty example_environment eq_refl).
    intros k Hk. vm_compute in Hk.
    repeat (apply elem_of_cons in Hk as [-> | Hk]; [by vm_compute |]).
    by apply elem_of_nil in Hk.
Defined.

(** ** Segments *)

(** C8, as stated, fails: the empty string splits into one empty token. *)
Lemma split_yields_empty_token :
  ~ (forall s t : string, t ∈ keysFor s -> t <> "").
Proof. intros H. apply (H "" ""); [by left | done]. Qed.

(** C8, amended. Splitting a prefix, namespace, target or key on [_] and
    [.] yields a non-empty ordered sequence of tokens, one more than there
    are delimiters, none of which contains a delimiter and which joined
    back give the string with its delimiters as underscores.  Tokens can
    be empty: one is exactly when the string is empty, begins or ends with
    a delimiter, or has two delimiters in a row. *)
Theorem split_tokens (s : string) :
  let tokens := split NamespacePattern s in
  keysFor s = tokens
  /\ (forall this, prefix this = s -> prefixes this = tokens)
  /\ (forall this, namespace this = s -> namespaces this = tokens)
  /\ (forall this, target this = s -> targets this = tokens)
  /\ List.length tokens = S (delimiters s)
  /\ (forall t c, t ∈ tokens -> occurs c t -> NamespacePattern c = false)
  /\ join "_" tokens = underscored s
  /\ ("" ∈ tokens
      <-> s = "" \/ starts_with_delimiter s = true
          \/ ends_with_delimiter s = true \/ adjacent_delimiters s = true).
Proof.
  intros tokens. split_and!.
  - done.
  - by intros this <-.
  - by intros this <-.
  - by intros this <-.
  - apply length_split.
  - intros t c. apply split_delimiter_free.
  - apply join_split.
  - apply split_empty_token.
Qed.

Lemma split_tokens_witness :
  "" ∈ split NamespacePattern "a__b"
  /\ prefixes (mkEnv DefaultEnvironment "a.b" "" "") = split NamespacePattern "a.b".
Proof.
  destruct (split_tokens "a__b") as (_ & _ & _ & _ & _ & _ & _ & Hempty).
  destruct (split_tokens "a.b") as (_ & Hprefix & _).
  split.
  - apply Hempty. do 3 right. reflexivity.
  - apply Hprefix. reflexivity.
Defined.

(** ** Empty segments in the joins *)

Section Joins.

Implicit Types (a b c d : string).

Let segments := split NamespacePattern.

Lemma segments_app_not_nil a (l : list string) : segments a ++ l <> [].
Proof.
  unfold segments. destruct (split_cons NamespacePattern a) as (t & ts & ->). done.
Qed.

Lemma join_segments2 a b :
  join "_" (segments a ++ segments b) = underscored a +:+ "_" +:+ underscored b.
Proof.
  unfold segments. rewrite join_app by apply split_not_nil.
  by rewrite !join_split.
Qed.

Lemma join_segments3 a b c :
  join "_" (segments a ++ segments b ++ segments c)
  = underscored a +:+ "_" +:+ underscored b +:+ "_" +:+ underscored c.
Proof.
  rewrite join_app; [| apply split_not_nil | apply segments_app_not_nil].
  rewrite join_segments2. unfold segments. by rewrite join_split.
Qed.

Lemma join_segments4 a b c d :
  join "_" (segments a ++ segments b ++ segments c ++ segments d)
  = underscored a +:+ "_" +:+ underscored b +:+ "_" +:+ underscored c
      +:+ "_" +:+ underscored d.
Proof.
  rewrite join_app; [| apply split_not_nil | apply segments_app_not_nil].
  rewrite join_segments3. unfold segments. by rewrite join_split.
Qed.

End Joins.

(** The six candidates, character for character. *)
Lemma fetchKeysFor_underscored (this : Env) (key : string) :
  let P := underscored (prefix this) in
  let N := underscored (namespace this) in
  let T := underscored (target this) in
  let K := underscored key in
  fetchKeysFor this (keysFor key) =
    [ toUpperCase (P +:+ "_" +:+ N +:+ "_" +:+ T +:+ "_" +:+ K);
      toUpperCase (N +:+ "_" +:+ T +:+ "_" +:+ K);
      toUpperCase (P +:+ "_" +:+ N +:+ "_" +:+ K);
      toUpperCase (N +:+ "_" +:+ K);
      toUpperCase (P +:+ "_" +:+ K);
      toUpperCase K ].
Proof.
  unfold fetchKeysFor, withPrefixesNamespacesTargetsKeyFor,
    withNamespacesTargetsKeyFor, withPrefixesNamespacesKeyFor,
    withNamespacesKeyFor, withPrefixesKeyFor, withKeyFor,
    prefixes, namespaces, targets, keysFor.
  by rewrite join_segments4, !join_segments3, !join_segments2, join_split.
Qed.

(** C7. Splitting the empty string gives one empty segment, not none, so
    an empty prefix, namespace or target puts one empty token into each
    join it takes part in; the join is the plain split-and-join, each
    delimiter becoming one underscore and nothing being trimmed or
    collapsed, which shows as leading, doubled and trailing underscores. *)
Theorem empty_segment_kept :
  split NamespacePattern "" = [""]
  /\ (forall this, prefix this = "" -> prefixes this = [""])
  /\ (forall this, namespace this = "" -> namespaces this = [""])
  /\ (forall this, target this = "" -> targets this = [""])
  /\ (forall s, join "_" (split NamespacePattern s) = underscored s
                /\ String.length (underscored s) = String.length s)
  /\ (forall this key,
        let P := underscored (prefix this) in
        let N := underscored (namespace this) in
        let T := underscored (target this) in
        let K := underscored key in
        fetchKeysFor this (keysFor key) =
          [ toUpperCase (P +:+ "_" +:+ N +:+ "_" +:+ T +:+ "_" +:+ K);
            toUpperCase (N +:+ "_" +:+ T +:+ "_" +:+ K);
            toUpperCase (P +:+ "_" +:+ N +:+ "_" +:+ K);
            toUpperCase (N +:+ "_" +:+ K);
            toUpperCase (P +:+ "_" +:+ K);
            toUpperCase K ])
  /\ (forall this key, prefix this = "" ->
        withPrefixesKeyFor this (keysFor key) = "_" +:+ withKeyFor (keysFor key))
  /\ (forall this key, namespace this = "" ->
        withNamespacesKeyFor this (keysFor key) = "_" +:+ withKeyFor (keysFor key))
  /\ (forall this key, target this = "" ->
        withNamespacesTargetsKeyFor this (keysFor key)
        = toUpperCase (underscored (namespace this)) +:+ "__"
            +:+ withKeyFor (keysFor key))
  /\ (forall this,
        withPrefixesKeyFor this (keysFor "")
        = toUpperCase (underscored (prefix this)) +:+ "_")
  /\ fetchKeysFor (mkEnv DefaultEnvironment DefaultPrefix DefaultNamespace "")
       (keysFor "url")
     = ["___URL"; "__URL"; "__URL"; "_URL"; "_URL"; "URL"].
Proof.
  split_and!; try done.
  - unfold prefixes. by intros this ->.
  - unfold namespaces. by intros this ->.
  - unfold targets. by intros this ->.
  - intros s. split; [apply join_split | apply length_underscored].
  - apply fetchKeysFor_underscored.
  - intros this key Hp. unfold withPrefixesKeyFor, withKeyFor, prefixes, keysFor.
    by rewrite join_segments2, join_split, Hp.
  - intros this key Hn. unfold withNamespacesKeyFor, withKeyFor, namespaces, keysFor.
    by rewrite join_segments2, join_split, Hn.
  - intros this key Ht.
    unfold withNamespacesTargetsKeyFor, withKeyFor, namespaces, targets, keysFor.
    rewrite join_segments3, join_split, Ht. by rewrite !toUpperCase_app.
  - intros this. unfold withPrefixesKeyFor, prefixes, keysFor.
    rewrite join_segments2. by rewrite toUpperCase_app.
Qed.

Lemma empty_segment_kept_witness :
  withPrefixesKeyFor (mkEnv DefaultEnvironment "" "project" "test") (keysFor "url")
  = "_URL".
Proof.
  destruct empty_segment_kept as (_ & _ & _ & _ & _ & _ & Hprefix & _).
  apply (Hprefix (mkEnv DefaultEnvironment "" "project" "test") "url").
  reflexivity.
Defined.

(** ** A repeated candidate *)

(** C10. When the prefix and the namespace split into the same segments,
    as the two empty defaults do, the fourth and fifth candidates are the
    same string: the list of six has a repetition, holds at most five
    different keys, and the missing-key error names the repeated key
    twice. *)
Theorem duplicate_candidate (m : Environment) (p n t key : string) :
  let this := mkEnv (JObject m) p n t in
  let candidates := fetchKeysFor this (keysFor key) in
  prefixes this = namespaces this ->
  exists c1 c2 c3 k c6,
    candidates = [c1; c2; c3; k; k; c6]
    /\ k = withNamespacesKeyFor this (keysFor key)
    /\ k = withPrefixesKeyFor this (keysFor key)
    /\ ~ NoDup candidates
    /\ (forall l : list string, NoDup l -> l ⊆ candidates -> List.length l <= 5)
    /\ ((forall k', k' ∈ candidates -> m !! k' = None) ->
        required this key
        = Throw (MissingKey
            (c1 +:+ " or " +:+ c2 +:+ " or " +:+ c3 +:+ " or " +:+ k
               +:+ " or " +:+ k +:+ " or " +:+ c6 +:+ " must be provided."))).
Proof.
  intros this candidates Hpn.
  exists (withPrefixesNamespacesTargetsKeyFor this (keysFor key)),
    (withNamespacesTargetsKeyFor this (keysFor key)),
    (withPrefixesNamespacesKeyFor this (keysFor key)),
    (withNamespacesKeyFor this (keysFor key)),
    (withKeyFor (keysFor key)).
  assert (withPrefixesKeyFor this (keysFor key)
          = withNamespacesKeyFor this (keysFor key)) as Heq.
  { unfold withPrefixesKeyFor, withNamespacesKeyFor. by rewrite Hpn. }
  assert (candidates =
    [ withPrefixesNamespacesTargetsKeyFor this (keysFor key);
      withNamespacesTargetsKeyFor this (keysFor key);
      withPrefixesNamespacesKeyFor this (keysFor key);
      withNamespacesKeyFor this (keysFor key);
      withNamespacesKeyFor this (keysFor key);
      withKeyFor (keysFor key) ]) as Hc.
  { unfold candidates, fetchKeysFor. by rewrite Heq. }
  split_and!; try done.
  - rewrite Hc. intros Hnd.
    do 3 apply NoDup_cons in Hnd as [_ Hnd].
    apply NoDup_cons in Hnd as [Hnotin _]. apply Hnotin. by left.
  - intros l Hnd Hsub.
    set (distinct :=
      [ withPrefixesNamespacesTargetsKeyFor this (keysFor key);
        withNamespacesTargetsKeyFor this (keysFor key);
        withPrefixesNamespacesKeyFor this (keysFor key);
        withNamespacesKeyFor this (keysFor key);
        withKeyFor (keysFor key) ]).
    assert (l ⊆+ distinct) as Hms.
    { apply NoDup_submseteq; [done |]. intros x Hx. apply Hsub in Hx.
      rewrite Hc in Hx. unfold distinct.
      repeat (apply elem_of_cons in Hx as [-> | Hx];
              [by repeat (first [left | right]) |]).
      by apply elem_of_nil in Hx. }
    apply submseteq_length in Hms. exact Hms.
  - intros Hnone.
    destruct (proj2 (fetch_throws this m eq_refl candidates) Hnone) as [e He].
    unfold required. fold candidates. rewrite He. f_equal.
    apply (fetch_error this m eq_refl) in He. rewrite He, Hc.
    unfold MissingEnvironmentKeyError. simpl join. by rewrite !app_assoc_str.
Qed.

Lemma duplicate_candidate_witness :
  exists c1 c2 c3 k c6,
    fetchKeysFor (mkEnv (JObject ∅) "" "" "development") (keysFor "url")
    = [c1; c2; c3; k; k; c6]
    /\ required (mkEnv (JObject ∅) "" "" "development") "url"
       = Throw (MissingKey
           (c1 +:+ " or " +:+ c2 +:+ " or " +:+ c3 +:+ " or " +:+ k
              +:+ " or " +:+ k +:+ " or " +:+ c6 +:+ " must be provided.")).
Proof.
  destruct (duplicate_candidate ∅ "" "" "development" "url" eq_refl)
    as (c1 & c2 & c3 & k & c6 & Hc & _ & _ & _ & _ & Hreport).
  exists c1, c2, c3, k, c6. split; [exact Hc |].
  apply Hreport. intros k' _. apply lookup_empty.
Defined.

(** ** Instances in the heap *)

Section Heaps.

Implicit Types (h : Heap) (o : Env) (r l : loc).

Lemma alter_fresh (f : Env -> Env) h o :
  alter f (List.length h) (h ++ [o]) = h ++ [f o].
Proof.
  replace (List.length h) with (List.length h + 0) by lia.
  by rewrite alter_app_r.
Qed.

Lemma new_Env_constructed options h :
  new_Env options h = (List.length h, h ++ [constructed options]).
Proof.
  unfold new_Env, alloc, constructor. by rewrite !alter_fresh.
Qed.

Lemma constructed_environment options :
  environment (constructed options) <> JUndefined.
Proof. simpl. by destruct (opt_environment options). Qed.

Lemma read_options_defined v :
  v <> JUndefined -> exists options, read_options v = Ok options.
Proof. destruct v; [done | eauto | eauto]. Qed.

Lemma with_allocates r t h o :
  h !! r = Some o -> environment o <> JUndefined ->
  exists options,
    read_options (environment o) = Ok options
    /\ with_ r t h = Ok (List.length h, h ++ [constructed options]).
Proof.
  intros Hr Ho. destruct (read_options_defined _ Ho) as [options Hopt].
  exists options. split; [done |].
  unfold with_, Reflect_construct. rewrite Hr. simpl. rewrite Hopt. simpl.
  by rewrite new_Env_constructed.
Qed.

Lemma new_Env_well_formed options h r h' :
  well_formed h -> new_Env options h = (r, h') -> well_formed h'.
Proof.
  rewrite new_Env_constructed. intros Hwf [= <- <-].
  apply Forall_app. split; [done |].
  apply Forall_singleton, constructed_environment.
Qed.

Lemma with_well_formed r t h r' h' :
  well_formed h -> with_ r t h = Ok (r', h') -> well_formed h'.
Proof.
  intros Hwf Hw. destruct (h !! r) as [o|] eqn:Hr.
  - assert (environment o <> JUndefined) as Ho.
    { apply list_elem_of_lookup_2 in Hr.
      unfold well_formed in Hwf. rewrite Forall_forall in Hwf. by apply Hwf. }
    destruct (with_allocates r t h o Hr Ho) as (options & _ & Hw').
    rewrite Hw' in Hw. injection Hw as <- <-.
    apply Forall_app. split; [done |].
    apply Forall_singleton, constructed_environment.
  - unfold with_ in Hw. by rewrite Hr in Hw.
Qed.

End Heaps.

(** ** [with] *)

(** C3 does not hold of the code.  [with] hands the constructor four
    positional arguments where it takes one options object, so the
    environment object is read as the options: the target passed to [with]
    never reaches the new instance, which gets the default environment,
    prefix, namespace and target.  On the resolver above,
    [with("production")] yields a resolver for which [required("url")]
    fails, where a resolver with the same configuration and target
    ["production"] returns ["p"]. *)
Theorem with_drops_configuration :
  (forall (r : loc) (t t' : string) (h : Heap), with_ r t h = with_ r t' h)
  /\ (let '(r, h) := new_Env production_options [] in
      let derived := mkEnv DefaultEnvironment "" "" "development" in
      h !! r = Some (mkEnv (JObject production_environment) "some" "project" "test")
      /\ with_ r "production" h = Ok (1, h ++ [derived])
      /\ call (h ++ [derived]) 1 (fun o => required o "url")
         = Throw (MissingKey
             ("__DEVELOPMENT_URL or _DEVELOPMENT_URL or __URL or _URL or _URL or URL"
              +:+ " must be provided."))
      /\ required
           (mkEnv (JObject production_environment) "some" "project" "production")
           "url"
         = Ok (VString "p")).
Proof.
  split.
  - intros r t t' h. unfold with_. by destruct (h !! r).
  - by vm_compute.
Qed.

(** C9. [with] leaves the resolver it is called on as it was: the call
    returns a fresh location, every instance already in the heap keeps its
    environment, prefix, namespace and target, and [required] and
    [optional] on the original give the same results after the call as
    before. *)
Theorem with_preserves_original (h : Heap) (r : loc) (o : Env) (newTarget : string) :
  well_formed h -> h !! r = Some o ->
  exists r' h',
    with_ r newTarget h = Ok (r', h')
    /\ r' <> r
    /\ h' !! r = Some o
    /\ (forall l, l < List.length h -> h' !! l = h !! l)
    /\ (forall key,
          call h' r (fun this => required this key)
          = call h r (fun this => required this key))
    /\ (forall key defaultValue,
          call h' r (fun this => optional this key defaultValue)
          = call h r (fun this => optional this key defaultValue)).
Proof.
  intros Hwf Hr.
  assert (environment o <> JUndefined) as Ho.
  { unfold well_formed in Hwf. rewrite Forall_forall in Hwf.
    apply Hwf. by apply list_elem_of_lookup_2 in Hr. }
  destruct (with_allocates r newTarget h o Hr Ho) as (options & _ & Hw).
  pose proof (lookup_lt_Some h r o Hr) as Hlt.
  assert (forall l, l < List.length h ->
            (h ++ [constructed options]) !! l = h !! l) as Hframe.
  { intros l Hl. by apply lookup_app_l. }
  exists (List.length h), (h ++ [constructed options]).
  split_and!; try done.
  - lia.
  - by rewrite Hframe.
  - intros key. unfold call. by rewrite Hframe.
  - intros key d. unfold call. by rewrite Hframe.
Qed.

Lemma with_preserves_original_witness :
  let '(r, h) := new_Env production_options [] in
  exists r' h',
    with_ r "production" h = Ok (r', h')
    /\ r' <> r
    /\ call h' r (fun this => required this "url") = Ok (VString "b").
Proof.
  destruct (new_Env production_options []) as [r h] eqn:E.
  vm_compute in E. injection E as <- <-.
  destruct (with_preserves_original
              [mkEnv (JObject production_environment) "some" "project" "test"]
              0 (mkEnv (JObject production_environment) "some" "project" "test")
              "production")
    as (r' & h' & Hw & Hne & _ & _ & Hreq & _).
  - apply Forall_singleton. done.
  - reflexivity.
  - exists r', h'. split_and!; [exact Hw | exact Hne |].
    rewrite Hreq. by vm_compute.
Defined.

(** ** Normal forms and round trips *)

Section NormalForms.

Implicit Types (s t a b : string) (c : ascii) (l : list string).

Lemma NamespacePattern_upper c :
  NamespacePattern (upper_ascii c) = NamespacePattern c.
Proof. by destruct c as [[] [] [] [] [] [] [] []]. Qed.

Lemma upper_ascii_idem c : upper_ascii (upper_ascii c) = upper_ascii c.
Proof. by destruct c as [[] [] [] [] [] [] [] []]. Qed.

Lemma upper_ascii_delimiter c :
  upper_ascii (if NamespacePattern c then "_"%char else c)
  = if NamespacePattern c then "_"%char else upper_ascii c.
Proof. by destruct (NamespacePattern c). Qed.

Lemma toUpperCase_idem s : toUpperCase (toUpperCase s) = toUpperCase s.
Proof.
  induction s as [|c s IH]; [done |]. simpl. by rewrite upper_ascii_idem, IH.
Qed.

Lemma underscored_app a b :
  underscored (a +:+ b) = underscored a +:+ underscored b.
Proof.
  induction a as [|c a IH]; [done |]. rewrite app_String. simpl.
  by rewrite IH.
Qed.

Lemma underscored_toUpperCase s :
  underscored (toUpperCase s) = toUpperCase (underscored s).
Proof.
  induction s as [|c s IH]; [done |]. simpl.
  rewrite IH, NamespacePattern_upper, upper_ascii_delimiter. done.
Qed.

Lemma underscored_idem s : underscored (underscored s) = underscored s.
Proof.
  induction s as [|c s IH]; [done |]. simpl. rewrite IH.
  by destruct (NamespacePattern c) eqn:E; [| rewrite E].
Qed.

Lemma normal_form_idem s : normal_form (normal_form s) = normal_form s.
Proof.
  unfold normal_form.
  by rewrite underscored_toUpperCase, underscored_idem, toUpperCase_idem.
Qed.

Lemma normal_form_app a b :
  normal_form (a +:+ b) = normal_form a +:+ normal_form b.
Proof. unfold normal_form. by rewrite underscored_app, toUpperCase_app. Qed.

Lemma withKeyFor_keysFor s : withKeyFor (keysFor s) = normal_form s.
Proof. unfold withKeyFor, keysFor, normal_form. by rewrite join_split. Qed.

Lemma split_toUpperCase s :
  split NamespacePattern (toUpperCase s)
  = map toUpperCase (split NamespacePattern s).
Proof.
  induction s as [|c s IH]; [done |]. simpl.
  rewrite NamespacePattern_upper, IH.
  destruct (NamespacePattern c); [done |].
  by destruct (split_cons NamespacePattern s) as (t & ts & ->).
Qed.

Lemma split_underscored s :
  split NamespacePattern (underscored s) = split NamespacePattern s.
Proof.
  induction s as [|c s IH]; [done |]. simpl.
  destruct (NamespacePattern c) eqn:E; simpl; rewrite ?E, IH; done.
Qed.

Lemma split_delimiter_free_all s :
  Forall (fun t => delimiter_free t = true) (split NamespacePattern s).
Proof.
  induction s as [|c s IH]; simpl.
  - by apply Forall_singleton.
  - destruct (NamespacePattern c) eqn:E.
    + by apply Forall_cons.
    + destruct (split_cons NamespacePattern s) as (t & ts & Es).
      rewrite Es in IH |- *. apply Forall_cons in IH as [Ht Hts].
      apply Forall_cons. split; [| done]. simpl. by rewrite E, Ht.
Qed.

Lemma split_one t :
  delimiter_free t = true -> split NamespacePattern t = [t].
Proof.
  induction t as [|c t IH]; [done |]. simpl.
  intros [Hc Ht]%andb_true_iff. apply negb_true_iff in Hc.
  by rewrite Hc, (IH Ht).
Qed.

Lemma split_app_underscore t s :
  delimiter_free t = true ->
  split NamespacePattern (t +:+ "_" +:+ s) = t :: split NamespacePattern s.
Proof.
  induction t as [|c t IH]; [done |].
  intros H. cbn [delimiter_free] in H.
  apply andb_true_iff in H as [Hc Ht]. apply negb_true_iff in Hc.
  rewrite app_String. cbn [split]. by rewrite Hc, (IH Ht).
Qed.

Lemma split_join l :
  l <> [] -> Forall (fun t => delimiter_free t = true) l ->
  split NamespacePattern (join "_" l) = l.
Proof.
  induction l as [|t l IH]; [done |]. intros _ [Ht Hl]%Forall_cons.
  destruct l as [|u l]; [by apply split_one |].
  rewrite join_cons by done. rewrite split_app_underscore by done.
  by rewrite IH.
Qed.

End NormalForms.

(** The six candidates as normal forms of the configuration strings put
    together with underscores. *)
Lemma fetchKeysFor_normal_form (this : Env) (key : string) :
  let p := prefix this in
  let n := namespace this in
  let t := target this in
  fetchKeysFor this (keysFor key) =
    [ normal_form (p +:+ "_" +:+ n +:+ "_" +:+ t +:+ "_" +:+ key);
      normal_form (n +:+ "_" +:+ t +:+ "_" +:+ key);
      normal_form (p +:+ "_" +:+ n +:+ "_" +:+ key);
      normal_form (n +:+ "_" +:+ key);
      normal_form (p +:+ "_" +:+ key);
      normal_form key ].
Proof.
  intros p n t. rewrite fetchKeysFor_underscored.
  unfold normal_form. by rewrite !underscored_app.
Qed.

Lemma fetch_environment (this this' : Env) (keys : list string) :
  environment this = environment this' -> fetch this keys = fetch this' keys.
Proof.
  intros He. unfold fetch, get.
  assert (forall l, some this l = some this' l) as ->.
  { induction l as [|k l IH]; [done |]. simpl. unfold has. by rewrite He, IH. }
  assert (forall l, find this l = find this' l) as Hfind.
  { induction l as [|k l IH]; [done |]. simpl. unfold has. by rewrite He, IH. }
  by rewrite Hfind, He.
Qed.

(** X1. Every candidate key is in normal form: taken as a logical key it
    is its own bare candidate, so a lookup by a candidate name ends its
    search at that very name. *)
Theorem candidates_canonical (this : Env) (key c : string) :
  c ∈ fetchKeysFor this (keysFor key) ->
  withKeyFor (keysFor c) = c
  /\ forall that, fetchKeysFor that (keysFor c) !! 5 = Some c.
Proof.
  intros Hc.
  assert (normal_form c = c) as Hnf.
  { rewrite fetchKeysFor_normal_form in Hc.
    repeat (apply elem_of_cons in Hc as [-> | Hc]; [apply normal_form_idem |]).
    by apply elem_of_nil in Hc. }
  split.
  - by rewrite withKeyFor_keysFor.
  - intros that. rewrite fetchKeysFor_normal_form. simpl. by rewrite Hnf.
Qed.

Lemma candidates_canonical_witness :
  withKeyFor (keysFor "SOME_PROJECT_URL") = "SOME_PROJECT_URL".
Proof.
  apply (candidates_canonical example_resolver "url" "SOME_PROJECT_URL").
  vm_compute. do 2 right. left.
Defined.

(** X2. Resolution sees the prefix, namespace, target and key only
    through their normal forms: two resolvers over the same environment
    whose configurations, and two keys which, differ only in letter case
    or in which of [_] and [.] separates the segments search the same
    candidates and give the same result, error message included. *)
Theorem required_normal_form (e : jsval) (p n t key p' n' t' key' : string) :
  normal_form p = normal_form p' ->
  normal_form n = normal_form n' ->
  normal_form t = normal_form t' ->
  normal_form key = normal_form key' ->
  fetchKeysFor (mkEnv e p n t) (keysFor key)
  = fetchKeysFor (mkEnv e p' n' t') (keysFor key')
  /\ required (mkEnv e p n t) key = required (mkEnv e p' n' t') key'
  /\ forall d, optional (mkEnv e p n t) key d = optional (mkEnv e p' n' t') key' d.
Proof.
  intros Hp Hn Ht Hk.
  assert (fetchKeysFor (mkEnv e p n t) (keysFor key)
          = fetchKeysFor (mkEnv e p' n' t') (keysFor key')) as Hc.
  { rewrite !fetchKeysFor_normal_form. simpl.
    rewrite !normal_form_app. by rewrite Hp, Hn, Ht, Hk. }
  assert (required (mkEnv e p n t) key = required (mkEnv e p' n' t') key') as Hr.
  { unfold required. rewrite Hc. by apply fetch_environment. }
  split_and!; [done | done |]. intros d. unfold optional. by rewrite Hr.
Qed.

Lemma required_normal_form_witness :
  required (mkEnv (JObject example_environment) "some" "project" "test") "db.url"
  = required (mkEnv (JObject example_environment) "SOME" "Project" "TEST") "DB_URL".
Proof.
  apply (required_normal_form (JObject example_environment)
           "some" "project" "test" "db.url" "SOME" "Project" "TEST" "DB_URL");
    reflexivity.
Defined.

(** X3. Splitting a candidate key gives back, in upper case, the
    segments it was joined from: the join loses nothing but letter case
    and the choice of delimiter. *)
Theorem candidate_segments (this : Env) (key : string) :
  let P := prefixes this in
  let N := namespaces this in
  let T := targets this in
  let K := keysFor key in
  map keysFor (fetchKeysFor this K)
  = map (map toUpperCase)
      [ P ++ N ++ T ++ K; N ++ T ++ K; P ++ N ++ K; N ++ K; P ++ K; K ].
Proof.
  intros P N T K.
  assert (forall l, l <> [] -> Forall (fun t => delimiter_free t = true) l ->
            keysFor (toUpperCase (join "_" l)) = map toUpperCase l) as Hsplit.
  { intros l Hne Hl. unfold keysFor. by rewrite split_toUpperCase, split_join. }
  assert (forall s, Forall (fun t => delimiter_free t = true)
                      (split NamespacePattern s)) as Hfree.
  { apply split_delimiter_free_all. }
  assert (forall s l, split NamespacePattern s ++ l <> []) as Hne.
  { intros s l. by destruct (split_cons NamespacePattern s) as (u & us & ->). }
  unfold fetchKeysFor, withPrefixesNamespacesTargetsKeyFor,
    withNamespacesTargetsKeyFor, withPrefixesNamespacesKeyFor,
    withNamespacesKeyFor, withPrefixesKeyFor, withKeyFor.
  unfold P, N, T, K, prefixes, namespaces, targets. cbn [map].
  rewrite !Hsplit; try done; try apply Hne;
    rewrite ?Forall_app; repeat split; try apply Hfree.
  apply split_not_nil.
Qed.

(** ** [some], [find] and the environment *)

(** X4. [some] and [find] agree on every instance and every list of
    keys: [some] answers whether [find] finds a key, and throws when it
    throws; a key [find] returns is in the list and accepted by [has], and
    every key before it is rejected.  So when [fetch] passes its [some]
    test, the key it hands to [get] is never [undefined]. *)
Theorem some_find_agree (this : Env) (keys : list string) :
  some this keys = (o <- find this keys ;; Ok (bool_decide (is_Some o)))
  /\ (forall k, find this keys = Ok (Some k) ->
        exists i, keys !! i = Some k /\ has this k = Ok true
          /\ forall j k', j < i -> keys !! j = Some k' -> has this k' = Ok false)
  /\ (some this keys = Ok true -> exists k, find this keys = Ok (Some k)).
Proof.
  assert (some this keys = (o <- find this keys ;; Ok (bool_decide (is_Some o))))
    as Hsome.
  { induction keys as [|k keys IH]; [done |]. simpl.
    destruct (has this k) as [[|]|e]; simpl; [done | exact IH | done]. }
  split_and!; [exact Hsome | |].
  - induction keys as [|k0 keys IH]; intros k Hk; [done |].
    simpl in Hk. destruct (has this k0) as [[|]|e] eqn:Hh; simpl in Hk.
    + injection Hk as <-. exists 0. split_and!; [done | done |].
      intros j k' Hj. lia.
    + assert (some this keys
              = (o <- find this keys ;; Ok (bool_decide (is_Some o)))) as Hs.
      { simpl in Hsome. by rewrite Hh in Hsome. }
      destruct (IH Hs k Hk) as (i & Hi & Hhas & Hbefore).
      exists (S i). split_and!; [done | done |].
      intros [|j] k' Hj Hl; [by injection Hl as <- |].
      apply (Hbefore j); [lia | done].
    + done.
  - rewrite Hsome. destruct (find this keys) as [[k|]|e]; simpl; [eauto | done | done].
Qed.

Lemma some_find_agree_witness :
  exists i,
    fetchKeysFor example_resolver (keysFor "url") !! i = Some "SOME_PROJECT_URL"
    /\ has example_resolver "SOME_PROJECT_URL" = Ok true.
Proof.
  destruct (some_find_agree example_resolver
              (fetchKeysFor example_resolver (keysFor "url")))
    as (_ & Hfind & _).
  destruct (Hfind "SOME_PROJECT_URL") as (i & Hi & Hhas & _); [by vm_compute |].
  exists i. by split.
Defined.

Lemma required_non_object (this : Env) (key : string) :
  (forall m, environment this <> JObject m) ->
  required this key = Throw TypeError.
Proof.
  intros Hno. unfold required, fetch, fetchKeysFor. simpl. unfold has.
  destruct (environment this) as [|s|m]; [done | done |]. by destruct (Hno m).
Qed.

(** X5. On an instance whose [environment] field does not hold an object,
    [required] throws a [TypeError] for every key, and [optional] hides
    it: with a non-empty default it returns the default, and only with an
    empty or missing default does the [TypeError] come through. *)
Theorem required_type_error (this : Env) (key : string) :
  (forall m, environment this <> JObject m) ->
  required this key = Throw TypeError
  /\ (forall s, s <> "" -> optional this key (VString s) = Ok (VString s))
  /\ optional this key (VString "") = Throw TypeError
  /\ optional this key VUndefined = Throw TypeError.
Proof.
  intros Hno.
  assert (required this key = Throw TypeError) as Hr.
  { by apply required_non_object. }
  unfold optional. rewrite Hr. split_and!; try done.
  intros s Hs. simpl. by destruct s.
Qed.

Lemma required_type_error_witness :
  required (mkEnv (JString "production") "" "" "development") "url"
  = Throw TypeError.
Proof.
  apply (required_type_error (mkEnv (JString "production") "" "" "development") "url").
  intros m. discriminate.
Defined.

(** ** Which bindings a lookup depends on *)

Lemma fetch_agree (m m' : Environment) (p n t p' n' t' : string)
    (keys : list string) :
  (forall k, k ∈ keys -> m !! k = m' !! k) ->
  fetch (mkEnv (JObject m) p n t) keys = fetch (mkEnv (JObject m') p' n' t') keys.
Proof.
  intros Hagree.
  rewrite (fetch_object (mkEnv (JObject m) p n t) m eq_refl),
    (fetch_object (mkEnv (JObject m') p' n' t') m' eq_refl).
  assert (list_find (present m) keys = list_find (present m') keys) as Hfind.
  { clear p n t p' n' t'. induction keys as [|k keys IH]; [done |].
    assert (present m k <-> present m' k) as Hk.
    { unfold present. rewrite (Hagree k); [done | by left]. }
    simpl.
    destruct (decide (present m k)) as [H1 | H1],
      (decide (present m' k)) as [H2 | H2]; [done | tauto | tauto |].
    rewrite IH; [done |]. intros k' Hk'. apply Hagree. by right. }
  rewrite <- Hfind.
  destruct (list_find (present m) keys) as [[i k]|] eqn:E; [| done].
  apply list_find_Some in E as (Hi & _ & _).
  apply list_elem_of_lookup_2 in Hi. by rewrite (Hagree k Hi).
Qed.

Lemma required_agree (m m' : Environment) (p n t key : string) :
  (forall k, k ∈ fetchKeysFor (mkEnv (JObject m) p n t) (keysFor key) ->
     m !! k = m' !! k) ->
  required (mkEnv (JObject m) p n t) key = required (mkEnv (JObject m') p n t) key.
Proof. intros Hagree. unfold required. by apply fetch_agree. Qed.

(** X6. [required] reads the environment at the six candidate keys only:
    two environments that agree there give the same result, so adding,
    changing or removing any other variable does not affect the lookup. *)
Theorem required_depends_on_candidates (m m' : Environment) (p n t key : string) :
  let this := mkEnv (JObject m) p n t in
  let this' := mkEnv (JObject m') p n t in
  (forall k, k ∈ fetchKeysFor this (keysFor key) -> m !! k = m' !! k) ->
  required this key = required this' key
  /\ forall d, optional this key d = optional this' key d.
Proof.
  intros this this' Hagree.
  assert (required this key = required this' key) as Hr.
  { unfold required. by apply fetch_agree. }
  split; [done |]. intros d. unfold optional. by rewrite Hr.
Qed.

Lemma required_depends_on_candidates_witness :
  required (mkEnv (JObject example_environment) "some" "project" "test") "url"
  = required
      (mkEnv (JObject (<["HOME" := VString "/root"]> example_environment))
         "some" "project" "test") "url".
Proof.
  apply (required_depends_on_candidates example_environment
           (<["HOME" := VString "/root"]> example_environment)
           "some" "project" "test" "url").
  intros k Hk. vm_compute in Hk.
  repeat (apply elem_of_cons in Hk as [-> | Hk]; [by vm_compute |]).
  by apply elem_of_nil in Hk.
Defined.

(** X7. A binding of the most specific candidate always wins: once the
    key made of prefix, namespace, target and logical key is bound to a
    string, [required] and [optional] return that string whatever else
    the environment holds and whatever default is given. *)
Theorem most_specific_wins (m : Environment) (p n t key v : string) (d : value) :
  let c1 := withPrefixesNamespacesTargetsKeyFor (mkEnv (JObject m) p n t)
              (keysFor key) in
  let this := mkEnv (JObject (<[c1 := VString v]> m)) p n t in
  required this key = Ok (VString v) /\ optional this key d = Ok (VString v).
Proof.
  intros c1 this.
  assert (required this key = Ok (VString v)) as Hr.
  { unfold required.
    apply (fetch_first this (<[c1 := VString v]> m) eq_refl _ 0 c1).
    - reflexivity.
    - apply lookup_insert_eq.
    - intros j k' Hj. lia. }
  split; [done |]. unfold optional. by rewrite Hr.
Qed.

(** ** Joins over arbitrary key lists *)

(** X8. The key builders compose: on a non-empty list of keys each
    longer candidate is the normal form of the prefix, or of the
    namespace, or of the namespace and the target, then one underscore,
    then a shorter candidate; on the empty list no underscore is added
    after the last segment and the bare candidate is the empty string. *)
Theorem key_builders_compose (this : Env) (keys : list string) :
  let P := normal_form (prefix this) in
  let N := normal_form (namespace this) in
  let T := normal_form (target this) in
  (keys <> [] ->
     withPrefixesNamespacesTargetsKeyFor this keys
     = P +:+ "_" +:+ withNamespacesTargetsKeyFor this keys
     /\ withPrefixesNamespacesKeyFor this keys
        = P +:+ "_" +:+ withNamespacesKeyFor this keys
     /\ withPrefixesKeyFor this keys = P +:+ "_" +:+ withKeyFor keys
     /\ withNamespacesTargetsKeyFor this keys
        = N +:+ "_" +:+ T +:+ "_" +:+ withKeyFor keys
     /\ withNamespacesKeyFor this keys = N +:+ "_" +:+ withKeyFor keys)
  /\ fetchKeysFor this []
     = [ P +:+ "_" +:+ N +:+ "_" +:+ T; N +:+ "_" +:+ T; P +:+ "_" +:+ N;
         N; P; "" ].
Proof.
  intros P N T.
  assert (forall s l, split NamespacePattern s ++ l <> []) as Hne.
  { intros s l. by destruct (split_cons NamespacePattern s) as (u & us & ->). }
  unfold P, N, T, normal_form, fetchKeysFor,
    withPrefixesNamespacesTargetsKeyFor, withNamespacesTargetsKeyFor,
    withPrefixesNamespacesKeyFor, withNamespacesKeyFor, withPrefixesKeyFor,
    withKeyFor, prefixes, namespaces, targets.
  split.
  - intros Hk.
    rewrite !(join_app "_" (split NamespacePattern _));
      try done; try apply Hne; try apply split_not_nil.
    rewrite !join_split, !toUpperCase_app. done.
  - rewrite !app_nil_r.
    rewrite !(join_app "_" (split NamespacePattern _));
      try apply Hne; try apply split_not_nil.
    rewrite !join_split, !toUpperCase_app. done.
Qed.

Lemma key_builders_compose_witness :
  withPrefixesKeyFor example_resolver ["Db"; "url"] = "SOME" +:+ "_" +:+ "DB_URL".
Proof.
  destruct (key_builders_compose example_resolver ["Db"; "url"]) as [Hcompose _].
  destruct Hcompose as (_ & _ & H & _); [done |]. exact H.
Defined.

(** ** Construction *)

(** X9. [new Env(options)] puts the new instance at a location no
    instance had, leaves every other instance as it was, and fills each
    field from the option of that name, a default standing in exactly
    when the option reads as [undefined]: an empty string given as
    prefix, namespace or target is kept. *)
Theorem new_Env_fresh (options : EnvOptions) (h : Heap) :
  exists r h',
    new_Env options h = (r, h')
    /\ h !! r = None
    /\ List.length h' = S (List.length h)
    /\ (forall l, l < List.length h -> h' !! l = h !! l)
    /\ h' !! r = Some
         {| environment :=
              match opt_environment options with
              | JUndefined => JObject ∅
              | v => v
              end;
            prefix :=
              match opt_prefix options with VUndefined => "" | VString s => s end;
            namespace :=
              match opt_namespace options with VUndefined => "" | VString s => s end;
            target :=
              match opt_target options with
              | VUndefined => "development"
              | VString s => s
              end |}.
Proof.
  exists (List.length h), (h ++ [constructed options]).
  split_and!.
  - apply new_Env_constructed.
  - by apply lookup_ge_None_2.
  - rewrite length_app. simpl. lia.
  - intros l Hl. by apply lookup_app_l.
  - rewrite lookup_app_r by lia. rewrite Nat.sub_diag.
    destruct options as [e ns p t]. by destruct e, ns, p, t.
Qed.

Lemma new_Env_fresh_witness :
  exists r h',
    new_Env production_options [fresh] = (r, h') /\ h' !! 0 = Some fresh.
Proof.
  destruct (new_Env_fresh production_options [fresh])
    as (r & h' & Hnew & _ & _ & Hframe & _).
  exists r, h'. split; [exact Hnew |]. rewrite Hframe; [reflexivity | simpl; lia].
Defined.

Lemma required_empty_environment (p n t key : string) :
  required (mkEnv (JObject ∅) p n t) key
  = Throw (MissingEnvironmentKeyError
             (fetchKeysFor (mkEnv (JObject ∅) p n t) (keysFor key))).
Proof.
  set (this := mkEnv (JObject ∅) p n t).
  destruct (proj2 (fetch_throws this ∅ eq_refl (fetchKeysFor this (keysFor key))))
    as [e He].
  - intros k _. apply lookup_empty.
  - unfold required. rewrite He. f_equal.
    by apply (fetch_error this ∅ eq_refl) in He.
Qed.

(** X10. A resolver that [with] derives from an [Env] instance resolves
    nothing.  Its environment is the empty default object, or the string
    the original environment binds under the name [environment]; in both
    cases [required] throws for every key, and [optional] can only return
    its default. *)
Theorem with_derived_never_resolves (h : Heap) (r : loc) (o : Env) (newTarget : string) :
  well_formed h -> h !! r = Some o ->
  exists r' h' derived,
    with_ r newTarget h = Ok (r', h')
    /\ h' !! r' = Some derived
    /\ (environment derived = JObject ∅ \/ exists s, environment derived = JString s)
    /\ (forall key, exists e, required derived key = Throw e)
    /\ (forall key d v, optional derived key d = Ok v -> v = d).
Proof.
  intros Hwf Hr.
  assert (environment o <> JUndefined) as Ho.
  { unfold well_formed in Hwf. rewrite Forall_forall in Hwf.
    apply Hwf. by apply list_elem_of_lookup_2 in Hr. }
  destruct (with_allocates r newTarget h o Hr Ho) as (options & Hopt & Hw).
  set (derived := constructed options).
  assert (environment derived = JObject ∅ \/ exists s, environment derived = JString s)
    as Henv.
  { unfold derived. destruct (environment o) as [|s|m]; [done | |].
    - injection Hopt as <-. by left.
    - injection Hopt as <-. simpl.
      destruct (default VUndefined (m !! "environment")) as [|s]; simpl; eauto. }
  assert (forall key, exists e, required derived key = Throw e) as Hreq.
  { intros key. destruct Henv as [He | [s He]].
    - destruct derived as [e' p n t]. simpl in He. subst e'.
      rewrite required_empty_environment. eauto.
    - exists TypeError. apply required_non_object. intros m. by rewrite He. }
  exists (List.length h), (h ++ [derived]), derived.
  split_and!; try done.
  - rewrite lookup_app_r by lia. by rewrite Nat.sub_diag.
  - intros key d v. unfold optional.
    destruct (Hreq key) as [e ->]. simpl.
    destruct (truthy d); [by intros [= <-] | done].
Qed.

Lemma with_derived_never_resolves_witness :
  exists r' h' derived,
    with_ 0 "production"
      [mkEnv (JObject production_environment) "some" "project" "test"]
    = Ok (r', h')
    /\ h' !! r' = Some derived
    /\ exists e, required derived "url" = Throw e.
Proof.
  destruct (with_derived_never_resolves
              [mkEnv (JObject production_environment) "some" "project" "test"]
              0 (mkEnv (JObject production_environment) "some" "project" "test")
              "production")
    as (r' & h' & derived & Hw & Hd & _ & Hreq & _).
  - by apply Forall_singleton.
  - reflexivity.
  - exists r', h', derived. split_and!; [exact Hw | exact Hd | apply Hreq].
Defined.

(** ** [NodeEnv] *)

(** The target a [NodeEnv] instance gets: [NODE_ENV] when it is bound to
    a string, the empty string included, and [DefaultTarget] otherwise. *)
Lemma NodeEnv_target (process_env : Environment) (options : EnvOptions) :
  or_default (opt_target (NodeEnv_options process_env options)) DefaultTarget
  = match process_env !! "NODE_ENV" with
    | Some (VString s) => s
    | _ => "development"
    end.
Proof. simpl. by destruct (process_env !! "NODE_ENV") as [[|s]|]. Qed.

Lemma new_NodeEnv_constructed (process_env : Environment)
    (options : EnvOptions) (h : Heap) :
  new_NodeEnv process_env options h
  = (List.length h,
     h ++ [ {| environment := JObject process_env;
               prefix := or_default (opt_prefix options) "";
               namespace := or_default (opt_namespace options) "";
               target :=
                 match process_env !! "NODE_ENV" with
                 | Some (VString s) => s
                 | _ => "development"
                 end |} ]).
Proof.
  unfold new_NodeEnv. rewrite new_Env_constructed. unfold constructed.
  by rewrite NodeEnv_target.
Qed.

(** X11. [new NodeEnv(options)] takes its environment and its target from
    the host: the environment is [process.env] and the target is
    [NODE_ENV] when that is bound to a string (an empty one included) and
    ["development"] otherwise.  The [environment] and [target] given in
    the options are not used; prefix and namespace are, with their
    defaults. *)
Theorem new_NodeEnv_reads_process_env (process_env : Environment)
    (options : EnvOptions) (h : Heap) :
  new_NodeEnv process_env options h
  = (List.length h,
     h ++ [ {| environment := JObject process_env;
               prefix := or_default (opt_prefix options) "";
               namespace := or_default (opt_namespace options) "";
               target :=
                 match process_env !! "NODE_ENV" with
                 | Some (VString s) => s
                 | _ => "development"
                 end |} ])
  /\ (forall options',
        opt_prefix options' = opt_prefix options ->
        opt_namespace options' = opt_namespace options ->
        new_NodeEnv process_env options' h = new_NodeEnv process_env options h).
Proof.
  split.
  - apply new_NodeEnv_constructed.
  - intros options' Hp Hn. unfold new_NodeEnv, NodeEnv_options.
    by rewrite Hp, Hn.
Qed.

Lemma new_NodeEnv_reads_process_env_witness :
  new_NodeEnv example_environment production_options []
  = new_NodeEnv example_environment
      {| opt_environment := JUndefined; opt_namespace := VString "project";
         opt_prefix := VString "some"; opt_target := VString "production" |} [].
Proof.
  symmetry.
  apply (proj2 (new_NodeEnv_reads_process_env example_environment
                  production_options [])); reflexivity.
Defined.

(** X12. [with] on a [NodeEnv] instance made from [process.env] returns,
    whatever target it is given, a fresh resolver over [process.env] whose
    target is again the one [NODE_ENV] gives, and whose prefix and
    namespace are what [process.env] binds under the names [prefix] and
    [namespace], or empty; the instance it was called on stays as it was. *)
Theorem with_NodeEnv_keeps_host_target (process_env : Environment)
    (options : EnvOptions) (h0 : Heap) (newTarget : string) :
  let r := (new_NodeEnv process_env options h0).1 in
  let h := (new_NodeEnv process_env options h0).2 in
  let hostTarget :=
    match process_env !! "NODE_ENV" with
    | Some (VString s) => s
    | _ => "development"
    end in
  exists original,
    h !! r = Some original
    /\ target original = hostTarget
    /\ with_NodeEnv process_env r newTarget h
       = Ok (List.length h,
             h ++ [ {| environment := JObject process_env;
                       prefix :=
                         or_default (default VUndefined (process_env !! "prefix")) "";
                       namespace :=
                         or_default (default VUndefined (process_env !! "namespace")) "";
                       target := hostTarget |} ])
    /\ r <> List.length h
    /\ (h ++ [ {| environment := JObject process_env;
                  prefix :=
                    or_default (default VUndefined (process_env !! "prefix")) "";
                  namespace :=
                    or_default (default VUndefined (process_env !! "namespace")) "";
                  target := hostTarget |} ]) !! r = Some original.
Proof.
  intros r h hostTarget.
  set (original := {| environment := JObject process_env;
                      prefix := or_default (opt_prefix options) "";
                      namespace := or_default (opt_namespace options) "";
                      target := hostTarget |}).
  assert (new_NodeEnv process_env options h0
          = (List.length h0, h0 ++ [original])) as Hnew.
  { apply new_NodeEnv_constructed. }
  subst r h. rewrite Hnew. cbn [fst snd].
  assert ((h0 ++ [original]) !! List.length h0 = Some original) as Hr.
  { rewrite lookup_app_r by lia. by rewrite Nat.sub_diag. }
  exists original. split_and!.
  - exact Hr.
  - done.
  - unfold with_NodeEnv, loc. rewrite Hr. unfold Reflect_construct_NodeEnv.
    f_equal.
    apply (new_NodeEnv_constructed process_env
             (spread_options (JObject process_env)) (h0 ++ [original])).
  - rewrite length_app. simpl. lia.
  - rewrite lookup_app_l; [exact Hr |]. rewrite length_app. simpl. lia.
Qed.

(** ** Names that are never read *)

Lemma normal_form_chars (s : string) (c : ascii) :
  occurs c (normal_form s) -> lower_case c = false /\ c <> "."%char.
Proof.
  unfold normal_form. induction s as [|d s IH]; [done |]. simpl.
  intros [-> | Hc]; [| by apply IH].
  by destruct d as [[] [] [] [] [] [] [] []].
Qed.

(** X13. No candidate key contains a lower-case letter or a full stop, so
    a variable whose name contains one is never read: binding it, to
    anything, changes the result of no lookup. *)
Theorem lower_case_names_unread (m : Environment) (p n t key name : string)
    (v : value) (c : ascii) :
  occurs c name -> (lower_case c = true \/ c = "."%char) ->
  (name ∉ fetchKeysFor (mkEnv (JObject m) p n t) (keysFor key))
  /\ required (mkEnv (JObject (<[name := v]> m)) p n t) key
     = required (mkEnv (JObject m) p n t) key
  /\ forall d,
       optional (mkEnv (JObject (<[name := v]> m)) p n t) key d
       = optional (mkEnv (JObject m) p n t) key d.
Proof.
  intros Hc Hbad.
  assert (forall e, name ∉ fetchKeysFor (mkEnv e p n t) (keysFor key)) as Hnot.
  { intros e Hin. rewrite fetchKeysFor_normal_form in Hin.
    assert (lower_case c = false /\ c <> "."%char) as [Hl Hd].
    { repeat (apply elem_of_cons in Hin as [-> | Hin];
              [by apply normal_form_chars in Hc |]).
      by apply elem_of_nil in Hin. }
    destruct Hbad as [Hbad | Hbad]; congruence. }
  assert (required (mkEnv (JObject (<[name := v]> m)) p n t) key
          = required (mkEnv (JObject m) p n t) key) as Hr.
  { apply required_agree. intros k Hk.
    apply lookup_insert_ne. intros ->. by apply (Hnot (JObject (<[k := v]> m))). }
  split_and!; [apply Hnot | done |].
  intros d. unfold optional. by rewrite Hr.
Qed.

Lemma lower_case_names_unread_witness :
  required (mkEnv (JObject (<["url" := VString "c"]> ∅)) "" "" "test") "url"
  = required (mkEnv (JObject ∅) "" "" "test") "url".
Proof.
  apply (lower_case_names_unread ∅ "" "" "test" "url" "url" (VString "c") "u"%char).
  - by left.
  - by left.
Defined.
